(** * The [explorations] generator of the site (scripts/explorations-generator.js)

    A shallow embedding of the Hexo generator that lists the posts of the
    "Explorations" category: it filters [locals.all_posts], orders the
    result (configured order, then sticky priority) and hands it to the
    paginator. *)

From Stdlib Require Import Ascii String.
From stdpp Require Import base list sorting strings pretty.

Open Scope string_scope.
Open Scope list_scope.
Open Scope Z_scope.

(** ** Failures

    A JavaScript exception raised inside the generator aborts it; the only
    ones the embedded code can meet are a property access on [undefined] or
    [null] and a rejected configuration. *)

Inductive Error := TypeError | ConfigurationError.

Inductive Result (A : Type) :=
| Ok (a : A)
| Err (e : Error).
Arguments Ok {A} a.
Arguments Err {A} e.

#[global] Instance Result_ret : MRet Result := λ A a, Ok a.
#[global] Instance Result_bind : MBind Result := λ A B f m,
  match m with
  | Ok a => f a
  | Err e => Err e
  end.

(** ** Data model *)

(** A value of a sortable field. *)
Inductive Value :=
| VNum (n : Z)
| VStr (s : string)
| VDate (t : Z)
| VBool (b : bool).

#[global] Instance Value_eq_dec : EqDecision Value.
Proof. solve_decision. Defined.

Record Category := mkCategory { name : string }.

(** [post.categories] as the filter reads it: the property may be missing,
    [null], or a list of categories. *)
Inductive Categories :=
| cats_undefined
| cats_null
| cats_list (l : list Category).

Record Post := mkPost {
  title : string;
  categories : Categories;
  date : Z;
  sticky : option Z;
  hidden : option bool;
  other : list (string * Value)
}.

(** A warehouse query: a wrapper around an array of documents. *)
Record Query := mkQuery { data : list Post }.

Record Locals := mkLocals { all_posts : option Query }.

Record IndexGenerator := mkIndexGenerator {
  order_by : option string;
  per_page : option Z
}.

Record Config := mkConfig {
  index_generator : IndexGenerator;
  pagination_dir : option string
}.

(** ** JavaScript's [a || b] on the values the generator applies it to *)

Definition or_num (a : option Z) (b : Z) : Z :=
  match a with
  | Some n => if n =? 0 then b else n
  | None => b
  end.

Definition or_str (a : option string) (b : string) : string :=
  match a with
  | Some "" => b
  | Some s => s
  | None => b
  end.

(** ** The filter (lines 16-19) *)

Definition truthy (c : Categories) : bool :=
  match c with
  | cats_list _ => true
  | _ => false
  end.

(** [c.length]: a property access, which throws on [undefined] and [null]. *)
Definition cats_length (c : Categories) : Result nat :=
  match c with
  | cats_list l => Ok (length l)
  | _ => Err TypeError
  end.

(** [c.some(f)]. *)
Definition cats_some (f : Category → bool) (c : Categories) : Result bool :=
  match c with
  | cats_list l => Ok (existsb f l)
  | _ => Err TypeError
  end.

(** The callback given to [filter]. *)
Definition is_exploration (post : Post) : Result bool :=
  if negb (truthy (categories post)) then Ok false
  else
    len ← cats_length (categories post);
    if (len =? 0)%nat then Ok false
    else cats_some (λ cat, String.eqb (name cat) "Explorations") (categories post).

(** [q.filter(f)] for a callback that may throw: the items are visited in
    order and the first exception aborts the walk. *)
Fixpoint filter_data (f : Post → Result bool) (l : list Post) : Result (list Post) :=
  match l with
  | [] => Ok []
  | x :: l' =>
      b ← f x;
      r ← filter_data f l';
      Ok (if b : bool then x :: r else r)
  end.

Definition query_filter (f : Post → Result bool) (q : Query) : Result Query :=
  r ← filter_data f (data q); Ok (mkQuery r).

Definition explorationsPosts (q : Query) : Result Query :=
  query_filter is_exploration q.

(** What the filter is meant to keep: the posts with a category named
    exactly ["Explorations"]. *)
Definition in_category (target : string) (p : Post) : Prop :=
  ∃ l c, categories p = cats_list l ∧ c ∈ l ∧ name c = target.

#[global] Instance Category_eq_dec : EqDecision Category.
Proof. solve_decision. Defined.

#[global] Instance in_category_dec target p : Decision (in_category target p).
Proof.
  refine (
    match categories p as c return categories p = c → _ with
    | cats_list l => λ Hc,
        cast_if (decide (Exists (λ c, name c = target) l))
    | _ => λ Hc, right _
    end eq_refl); unfold in_category.
  - intros (l & c & H & _); congruence.
  - intros (l & c & H & _); congruence.
  - apply Exists_exists in e as (c & Hin & Hn). eauto.
  - intros (l' & c & H & Hin & Hn). apply n, Exists_exists.
    assert (l' = l) by congruence. subst. eauto.
Defined.

(** ** Ordering (lines 26-30) *)

(** [Array.prototype.sort(cmp)]: the sort is stable (ECMAScript 2019), so
    for a consistent comparator its result is the stable rearrangement into
    non-decreasing order; [x] stays in front of [y] unless [cmp x y > 0]. *)
Section array_sort.
Context {A : Type} (cmp : A → A → Z).

Fixpoint sort_insert (x : A) (l : list A) : list A :=
  match l with
  | [] => [x]
  | y :: l' => if cmp x y <=? 0 then x :: y :: l' else y :: sort_insert x l'
  end.

Definition array_sort (l : list A) : list A := foldr sort_insert [] l.
End array_sort.

(** [(a, b) => (b.sticky || 0) - (a.sticky || 0)] *)
Definition sticky0 (p : Post) : Z := or_num (sticky p) 0.
Definition sticky_cmp (a b : Post) : Z := sticky0 b - sticky0 a.

Fixpoint assoc (k : string) (l : list (string * Value)) : option Value :=
  match l with
  | [] => None
  | (k', v) :: l' => if String.eqb k k' then Some v else assoc k l'
  end.

(** Modelled from the spec: the field lookup of the warehouse sort, which
    is not among the sources. The value of the field [f] of a post, for the
    fields of an item (spec 3, 4.2): the date, the sticky priority and the
    hidden flag when present, the title, and the other fields the post
    carries. *)
Definition field (f : string) (p : Post) : option Value :=
  if String.eqb f "date" then Some (VDate (date p))
  else if String.eqb f "sticky" then VNum <$> sticky p
  else if String.eqb f "title" then Some (VStr (title p))
  else if String.eqb f "hidden" then VBool <$> hidden p
  else assoc f (other p).

(** Modelled from the spec: the reading of the [orderBy] option by the
    warehouse sort, which is not among the sources (spec 3): a field name,
    with ["-"] in front for descending. *)
Definition parse_order (orderBy : string) : string * bool :=
  match orderBy with
  | String "-"%char f => (f, true)
  | f => (f, false)
  end.

Definition value_rank (v : Value) : Z :=
  match v with
  | VNum _ => 0
  | VStr _ => 1
  | VDate _ => 2
  | VBool _ => 3
  end.

Definition bool_compare (a b : bool) : comparison :=
  match a, b with
  | false, true => Lt
  | true, false => Gt
  | _, _ => Eq
  end.

(** Modelled from the spec: the comparison of field values by the
    warehouse sort, which is not among the sources (spec 4.2): dates
    compare chronologically, numbers numerically, strings lexically; on
    flags and on values of different kinds the spec is silent: [false]
    stands before [true], and different kinds are kept apart by kind. *)
Definition value_compare (v w : Value) : comparison :=
  match v, w with
  | VNum a, VNum b => a ?= b
  | VStr a, VStr b => String.compare a b
  | VDate a, VDate b => a ?= b
  | VBool a, VBool b => bool_compare a b
  | _, _ => value_rank v ?= value_rank w
  end.

Definition sign (c : comparison) : Z :=
  match c with
  | Lt => -1
  | Eq => 0
  | Gt => 1
  end.

(** Modelled from the spec: the comparator of the warehouse sort, which is
    not among the sources (spec 4.2): the comparison of the two posts'
    values of the field, negated for a descending order. *)
Definition order_cmp (f : string) (desc : bool) (a b : Post) : Z :=
  match field f a, field f b with
  | Some v, Some w =>
      let c := sign (value_compare v w) in
      if desc then - c else c
  | _, _ => 0
  end.

(** Modelled from the spec: [Query.prototype.sort] belongs to the warehouse
    library, which is not among the sources. Per the spec (4.2, 7) the
    primary ordering is a stable sort of the items by the named field,
    ascending or descending, and a field that does not exist on the items
    is a configuration error. *)
Definition query_sort (orderBy : string) (q : Query) : Result Query :=
  let '(f, desc) := parse_order orderBy in
  if forallb (λ p, bool_decide (is_Some (field f p))) (data q)
  then Ok (mkQuery (array_sort (order_cmp f desc) (data q)))
  else Err ConfigurationError.

(** ** Pagination (lines 32-42) *)

Inductive DataValue :=
| DBool (b : bool)
| DStr (s : string).

(** The directives of [util.format] that print their argument; a page
    number is printed in decimal by each of them. *)
Definition prints_argument (c : ascii) : bool :=
  existsb (Ascii.eqb c) (list_ascii_of_string "sjdOoif").

(** [util.format(fmt, n)] of Node.js for a string [fmt] and one number [n]
    whose decimal writing is [num], as [format_scan] reads [fmt]: a [%]
    followed by a printing directive takes the argument, if it is still
    [pending], and writes it; [%c] takes it and writes nothing; [%%]
    writes one [%]; every other character, a [%] in front of another
    character or at the end included, is copied. *)
Fixpoint format_scan (fmt : string) (pending : bool) (num : string)
  : string * bool :=
  match fmt with
  | "" => ("", pending)
  | String c rest =>
      if Ascii.eqb c "%" then
        match rest with
        | "" => ("%", pending)
        | String d rest' =>
            if Ascii.eqb d "%" then
              let '(out, p) := format_scan rest' pending num in
              (String "%" out, p)
            else if pending && prints_argument d then
              let '(out, p) := format_scan rest' false num in
              (num +:+ out, p)
            else if pending && Ascii.eqb d "c" then
              format_scan rest' false num
            else
              let '(out, p) := format_scan rest' pending num in
              (String "%" (String d out), p)
        end
      else
        let '(out, p) := format_scan rest pending num in
        (String c out, p)
  end.

(** Modelled from the spec: the formatting of an address by
    hexo-pagination, which is not among the sources (spec 4.3): the page
    number is written in decimal into the [printf]-style format of line 37,
    as [util.format] of Node.js does; an argument that no directive took is
    added at the end after a space. *)
Definition util_format (fmt : string) (num : string) : string :=
  let '(out, p) := format_scan fmt true num in
  if p then out +:+ " " +:+ num else out.

(** The options object given to [pagination]. *)
Module Options.
Record t := mk {
  perPage : Z;
  layout : list string;
  format : string;
  data : list (string * DataValue)
}.
End Options.

(** Modelled from the spec: the page objects hexo-pagination returns, not
    among the sources (spec 3). *)
Record Page := mkPage {
  items : list Post;
  index : nat;
  totalPages : nat;
  path : string;
  layoutCandidates : list string;
  extraData : list (string * DataValue)
}.

(** Modelled from the spec: the chunking of hexo-pagination, which is not
    among the sources (spec 4.3). Walk the sequence, cutting off chunks of [n]
    items, the last one possibly shorter; the walk of a sequence of [k]
    items needs at most [k] steps. *)
Fixpoint chunks_go (steps n : nat) (l : list Post) : list (list Post) :=
  match steps with
  | O => []
  | S steps' =>
      match l with
      | [] => []
      | _ => take n l :: chunks_go steps' n (drop n l)
      end
  end.

Definition chunks (n : nat) (l : list Post) : list (list Post) :=
  chunks_go (length l) n l.

(** Modelled from the spec: the page count of hexo-pagination, which is not
    among the sources (spec 4.3): the ceiling of [a / b]. *)
Definition ceil_div (a b : nat) : nat := ((a + (b - 1)) / b)%nat.

(** Modelled from the spec: the addressing of hexo-pagination, which is not
    among the sources (spec 4.3). The first page keeps the base address, the later
    ones add the formatted page number. *)
Definition address (base : string) (fmt : string) (i : nat) : string :=
  if (i =? 1)%nat then base else base +:+ util_format fmt (pretty i).

(** Modelled from the spec: [pagination] is the hexo-pagination routine,
    which is not among the sources. Per the spec (4.3, 4.4, 7): a [perPage] that
    is not positive is a configuration error; otherwise the sequence is
    cut in order into chunks of at most [perPage] items, numbered from 1,
    each one a page with the shared [totalPages] (the ceiling of length
    over [perPage]), its address, the layout names and the extra data. *)
Definition pagination (base : string) (posts : Query) (o : Options.t)
  : Result (list Page) :=
  if Options.perPage o <=? 0 then Err ConfigurationError
  else
    let n := Z.to_nat (Options.perPage o) in
    let total := ceil_div (length (data posts)) n in
    Ok (imap (λ i c, {| items := c;
                        index := S i;
                        totalPages := total;
                        path := address base (Options.format o) (S i);
                        layoutCandidates := Options.layout o;
                        extraData := Options.data o |})
             (chunks n (data posts))).

(** ** The generator (lines 7-43) *)

Definition generator (config : Config) (locals : Locals) : Result (list Page) :=
  match all_posts locals with
  | None => Ok []
  | Some posts =>
      explorationsPosts ← explorationsPosts posts;
      if (length (data explorationsPosts) =? 0)%nat then Ok []
      else
        let orderBy := or_str (order_by (index_generator config)) "-date" in
        sortedPosts ← query_sort orderBy explorationsPosts;
        let sortedPosts := mkQuery (array_sort sticky_cmp (data sortedPosts)) in
        let paginationDir := or_str (pagination_dir config) "page" in
        pagination "explorations/" sortedPosts
          {| Options.perPage := or_num (per_page (index_generator config)) 10;
             Options.layout := ["explorations"; "index"];
             Options.format := paginationDir +:+ "/%d/";
             Options.data := [("__explorations", DBool true);
                              ("subtitle", DStr "Curiosity-driven dives")] |}
  end.

(** ** Views of the pipeline used in the statements *)

(** The filtered sequence. *)
Definition selected (posts : list Post) : list Post :=
  filter (in_category "Explorations") posts.

(** The filtered-and-ordered sequence: the two sorting passes applied to the
    filtered sequence. *)
Definition ordered (config : Config) (sel : list Post) : Result (list Post) :=
  sortedPosts ← query_sort (or_str (order_by (index_generator config)) "-date")
                           (mkQuery sel);
  Ok (array_sort sticky_cmp (data sortedPosts)).

(** The items of a sequence of pages, in page order. *)
Definition all_items (pages : list Page) : list Post :=
  concat (items <$> pages).

(** The capacity and the directory segment the generator passes on. *)
Definition perPage_of (config : Config) : Z :=
  or_num (per_page (index_generator config)) 10.

Definition paginationDir_of (config : Config) : string :=
  or_str (pagination_dir config) "page".

(** The options object the generator builds. *)
Definition options_of (config : Config) : Options.t :=
  {| Options.perPage := perPage_of config;
     Options.layout := ["explorations"; "index"];
     Options.format := paginationDir_of config +:+ "/%d/";
     Options.data := [("__explorations", DBool true);
                      ("subtitle", DStr "Curiosity-driven dives")] |}.

(** The page made of the chunk [c] at position [i] (from 0). *)
Definition page_of (base : string) (o : Options.t) (total i : nat) (c : list Post) : Page :=
  {| items := c;
     index := S i;
     totalPages := total;
     path := address base (Options.format o) (S i);
     layoutCandidates := Options.layout o;
     extraData := Options.data o |}.

(** The pages cut out of an ordered sequence. *)
Definition pages_of (config : Config) (fin : list Post) : list Page :=
  let n := Z.to_nat (perPage_of config) in
  imap (page_of "explorations/" (options_of config) (ceil_div (length fin) n))
       (chunks n fin).


(** Whether a string holds the character [%]. *)
Fixpoint has_percent (s : string) : bool :=
  match s with
  | "" => false
  | String c s' => Ascii.eqb c "%" || has_percent s'
  end.

(** The primary-sort key of a post. *)
Definition primary_key (config : Config) (p : Post) : option Value :=
  field (parse_order (or_str (order_by (index_generator config)) "-date")).1 p.

(** [a] stands before [b] in [l]. *)
Definition before (a b : Post) (l : list Post) : Prop :=
  ∃ l1 l2 l3, l = l1 ++ a :: l2 ++ b :: l3.

(** Changing the hidden flag of a post, and forgetting it. *)
Definition set_hidden (h : option bool) (p : Post) : Post :=
  {| title := title p; categories := categories p; date := date p;
     sticky := sticky p; hidden := h; other := other p |}.




(** ** Sample data *)

Definition expl : Categories := cats_list [mkCategory "Explorations"].

Definition post (t : string) (d : Z) (s : option Z) : Post :=
  mkPost t expl d s None [].

Definition default_config : Config :=
  mkConfig (mkIndexGenerator None None) None.

Definition with_per_page (n : Z) (config : Config) : Config :=
  mkConfig (mkIndexGenerator (order_by (index_generator config)) (Some n))
           (pagination_dir config).

Definition config_per_page (n : Z) : Config := with_per_page n default_config.

Definition sample_ABC : list Post :=
  [post "A" 30 (Some 0); post "B" 20 (Some 1); post "C" 10 None].

(** Two posts of the same date and priority, and a pinned one. *)
Definition sample_tie : list Post :=
  [post "X" 5 None; post "Y" 5 (Some 0); post "Z" 9 (Some 1)].

(** Posts that the filter must leave out. *)
Definition sample_unfit : list Post :=
  [mkPost "u" cats_undefined 1 None None [];
   mkPost "n" cats_null 2 None None [];
   mkPost "e" (cats_list []) 3 None None [];
   mkPost "g" (cats_list [mkCategory "Graph Theory"]) 4 None (Some true) []].

(** The three posts again, all marked hidden. *)
Definition sample_hidden : list Post :=
  set_hidden (Some true) <$> sample_ABC.

(** A pagination directory that holds a directive, two posts per page. *)
Definition config_percent : Config :=
  mkConfig (mkIndexGenerator None (Some 2)) (Some "p%d").




Definition twelve : list Post :=
  (λ i : nat, post (pretty i) (100 - Z.of_nat i) None) <$> seq 1 12.

(** ** Views used for the further properties *)

(** The post with its sticky priority written out, a missing one as 0. *)
Definition explicit_sticky (p : Post) : Post :=
  {| title := title p; categories := categories p; date := date p;
     sticky := match sticky p with
               | Some n => Some n
               | None => Some 0
               end;
     hidden := hidden p; other := other p |}.

(** The configuration with ["-date"], 10 and ["page"] written where the
    order, the page size and the pagination directory are absent, empty
    or 0. *)
Definition explicit_defaults (config : Config) : Config :=
  mkConfig
    (mkIndexGenerator
       (match order_by (index_generator config) with
        | None | Some "" => Some "-date"
        | Some s => Some s
        end)
       (match per_page (index_generator config) with
        | None | Some 0 => Some 10
        | Some n => Some n
        end))
    (match pagination_dir config with
     | None | Some "" => Some "page"
     | Some s => Some s
     end).

(** A post of another category, and posts with priorities below, at and
    above 0. *)
Definition other_post : Post :=
  mkPost "G" (cats_list [mkCategory "Graph Theory"]) 50 (Some 9) None [].

Definition sample_mixed : list Post :=
  [post "P" 1 (Some (-1)); post "Q" 2 None; post "R" 3 (Some 0);
   post "S" 4 (Some 2)].

(** * Properties *)

(** ** The filter *)

Lemma existsb_Exists {A} (f : A → bool) (P : A → Prop) (l : list A) :
  (∀ x, f x = true ↔ P x) → existsb f l = true ↔ Exists P l.
Proof.
  intros Hf. induction l as [|x l IH]; simpl.
  - split; [discriminate | inversion 1].
  - rewrite orb_true_iff, Exists_cons, IH, Hf. tauto.
Qed.

Lemma in_category_list target p l :
  categories p = cats_list l →
  in_category target p ↔ Exists (λ c, name c = target) l.
Proof.
  intros Hc. rewrite Exists_exists. unfold in_category. split.
  - intros (l' & c & Hl & Hin & Hn). assert (l' = l) by congruence. subst. eauto.
  - intros (c & Hin & Hn). eauto.
Qed.

Lemma is_exploration_decides p :
  is_exploration p = Ok (bool_decide (in_category "Explorations" p)).
Proof.
  unfold is_exploration.
  destruct (categories p) as [| |l] eqn:Hc; simpl.
  - rewrite bool_decide_eq_false_2; [done|]. intros (l & c & H & _). congruence.
  - rewrite bool_decide_eq_false_2; [done|]. intros (l & c & H & _). congruence.
  - destruct l as [|c l]; simpl.
    + rewrite bool_decide_eq_false_2; [done|].
      rewrite (in_category_list _ _ _ Hc). inversion 1.
    + f_equal. apply Bool.eq_true_iff_eq.
      rewrite bool_decide_eq_true, (in_category_list _ _ _ Hc).
      apply (existsb_Exists (λ cat, String.eqb (name cat) "Explorations")
               (λ cat, name cat = "Explorations") (c :: l)).
      intros x. apply String.eqb_eq.
Qed.

Lemma filter_data_decides (f : Post → Result bool) (P : Post → Prop)
    `{!∀ x, Decision (P x)} (l : list Post) :
  (∀ x, f x = Ok (bool_decide (P x))) → filter_data f l = Ok (filter P l).
Proof.
  intros Hf. induction l as [|x l IH]; [done|].
  simpl. rewrite Hf, IH. simpl. rewrite filter_cons.
  destruct (decide (P x)).
  - by rewrite bool_decide_eq_true_2.
  - by rewrite bool_decide_eq_false_2.
Qed.

Lemma explorationsPosts_selected q :
  explorationsPosts q = Ok (mkQuery (selected (data q))).
Proof.
  unfold explorationsPosts, query_filter, selected.
  rewrite (filter_data_decides _ (in_category "Explorations"));
    [done | apply is_exploration_decides].
Qed.

(** C2: the filter returns exactly the posts that have a category named
    "Explorations" (exact string equality), in the order of the input: its
    result is a sub-sequence of the input and every post in it has such a
    category. *)
Theorem selector_exact (q : Query) :
  ∃ sel, explorationsPosts q = Ok sel ∧
    data sel = filter (in_category "Explorations") (data q) ∧
    data sel `sublist_of` data q ∧
    Forall (in_category "Explorations") (data sel).
Proof.
  exists (mkQuery (selected (data q))). split; [apply explorationsPosts_selected|].
  simpl. split; [done|]. split; [apply sublist_filter|].
  apply Forall_forall. intros p Hp. by apply list_elem_of_filter in Hp as [? _].
Qed.

(** The comparison of category names is case-sensitive. *)
Example selector_case_sensitive :
  explorationsPosts
    (mkQuery [mkPost "a" (cats_list [mkCategory "explorations"]) 1 None None [];
              mkPost "b" (cats_list [mkCategory "Explorations"]) 2 None None []])
  = Ok (mkQuery [mkPost "b" (cats_list [mkCategory "Explorations"]) 2 None None []]).
Proof. reflexivity. Qed.

(** C10: the filter never throws; a post whose [categories] is missing,
    [null] or an empty list is left out of its result. *)
Theorem selector_total (q : Query) :
  ∃ sel, explorationsPosts q = Ok sel ∧
    ∀ p, p ∈ data q →
      categories p = cats_undefined ∨ categories p = cats_null ∨
      categories p = cats_list [] →
      p ∉ data sel.
Proof.
  exists (mkQuery (selected (data q))). split; [apply explorationsPosts_selected|].
  intros p _ Hc Hin. simpl in Hin.
  apply list_elem_of_filter in Hin as [(l & c & Hl & Hcl & _) _].
  destruct Hc as [Hc|[Hc|Hc]]; rewrite Hc in Hl; try discriminate.
  injection Hl as <-. inversion Hcl.
Qed.

Lemma selector_total_witness :
  ∃ sel, explorationsPosts (mkQuery (sample_unfit ++ sample_ABC)) = Ok sel ∧
    (mkPost "u" cats_undefined 1 None None [] ∉ data sel) ∧
    (mkPost "n" cats_null 2 None None [] ∉ data sel) ∧
    (mkPost "e" (cats_list []) 3 None None [] ∉ data sel).
Proof.
  destruct (selector_total (mkQuery (sample_unfit ++ sample_ABC)))
    as (sel & Hsel & Hout).
  exists sel. split; [exact Hsel|].
  split; [|split].
  - apply Hout; [apply list_elem_of_here | left; reflexivity].
  - apply Hout; [apply list_elem_of_further, list_elem_of_here
                | right; left; reflexivity].
  - apply Hout; [do 2 apply list_elem_of_further; apply list_elem_of_here
                | right; right; reflexivity].
Defined.

(** ** The sort *)

Section array_sort_facts.
Context {A : Type} (cmp : A → A → Z).

Lemma sort_insert_perm x l : sort_insert cmp x l ≡ₚ x :: l.
Proof.
  induction l as [|y l IH]; simpl; [done|].
  destruct (cmp x y <=? 0); [done|].
  rewrite IH. apply Permutation_swap.
Qed.

Lemma array_sort_perm l : array_sort cmp l ≡ₚ l.
Proof.
  induction l as [|x l IH]; simpl; [done|].
  rewrite sort_insert_perm. by f_equiv.
Qed.

Lemma array_sort_length l : length (array_sort cmp l) = length l.
Proof. by rewrite array_sort_perm. Qed.

(** Stability: the items of a class whose members never compare greater
    than one another keep their order. *)
Lemma sort_insert_filter (P : A → Prop) `{!∀ x, Decision (P x)} x l :
  (∀ a b, P a → P b → cmp a b ≤ 0) →
  filter P (sort_insert cmp x l) = filter P (x :: l).
Proof.
  intros Hcl. induction l as [|y l IH]; simpl; [done|].
  destruct (cmp x y <=? 0) eqn:Hxy; [done|].
  rewrite filter_cons, IH, !filter_cons.
  destruct (decide (P y)) as [Hy|]; [|done].
  destruct (decide (P x)) as [Hx|]; [|done].
  specialize (Hcl x y Hx Hy). lia.
Qed.

Lemma array_sort_stable (P : A → Prop) `{!∀ x, Decision (P x)} l :
  (∀ a b, P a → P b → cmp a b ≤ 0) →
  filter P (array_sort cmp l) = filter P l.
Proof.
  intros Hcl. induction l as [|x l IH]; simpl; [done|].
  rewrite sort_insert_filter by done. by rewrite !filter_cons, IH.
Qed.

(** Order: for a comparator that is transitive and total, the result is
    sorted. *)
Context (cmp_trans : ∀ a b c, cmp a b ≤ 0 → cmp b c ≤ 0 → cmp a c ≤ 0).
Context (cmp_total : ∀ a b, cmp a b ≤ 0 ∨ cmp b a ≤ 0).

Lemma sort_insert_sorted x l :
  StronglySorted (λ a b, cmp a b ≤ 0) l →
  StronglySorted (λ a b, cmp a b ≤ 0) (sort_insert cmp x l).
Proof.
  induction 1 as [|y l Hs IH Hy]; simpl.
  - repeat constructor.
  - destruct (cmp x y <=? 0) eqn:Hxy.
    + apply Z.leb_le in Hxy. constructor; [by constructor|].
      constructor; [done|].
      eapply Forall_impl; [exact Hy|]. intros z Hz. by eapply cmp_trans.
    + apply Z.leb_gt in Hxy. constructor; [done|].
      rewrite sort_insert_perm. constructor; [|done].
      destruct (cmp_total x y); [lia|done].
Qed.

Lemma array_sort_sorted l :
  StronglySorted (λ a b, cmp a b ≤ 0) (array_sort cmp l).
Proof.
  induction l as [|x l IH]; simpl; [constructor|].
  by apply sort_insert_sorted.
Qed.
End array_sort_facts.

Lemma sort_insert_fmap {A B} (f : A → B) (cmpA : A → A → Z) (cmpB : B → B → Z) x m :
  (∀ a b, cmpB (f a) (f b) = cmpA a b) →
  sort_insert cmpB (f x) (f <$> m) = f <$> sort_insert cmpA x m.
Proof.
  intros Hc. induction m as [|y m IHm]; [done|].
  cbn [fmap list_fmap sort_insert]. rewrite Hc.
  destruct (cmpA x y <=? 0); [done|].
  cbn [fmap list_fmap]. f_equal. exact IHm.
Qed.

Lemma array_sort_fmap {A B} (f : A → B) (cmpA : A → A → Z) (cmpB : B → B → Z) l :
  (∀ a b, cmpB (f a) (f b) = cmpA a b) →
  array_sort cmpB (f <$> l) = f <$> array_sort cmpA l.
Proof.
  intros Hc. induction l as [|x l IH]; [done|].
  change (array_sort cmpB (f <$> x :: l))
    with (sort_insert cmpB (f x) (array_sort cmpB (f <$> l))).
  rewrite IH. by apply sort_insert_fmap.
Qed.

Lemma StronglySorted_lookup_lt {A} (R : relation A) l i j x y :
  StronglySorted R l → l !! i = Some x → l !! j = Some y → (i < j)%nat → R x y.
Proof.
  intros Hs. revert i j. induction Hs as [|z l Hs IH Hz]; intros i j Hi Hj Hlt.
  - by rewrite lookup_nil in Hi.
  - destruct j as [|j]; [lia|]. destruct i as [|i]; simpl in *.
    + injection Hi as <-. rewrite Forall_forall in Hz.
      apply Hz. by eapply list_elem_of_lookup_2.
    + eapply IH; [done..|lia].
Qed.

Lemma sticky_sorted l :
  StronglySorted (λ a b, sticky_cmp a b ≤ 0) (array_sort sticky_cmp l).
Proof.
  apply array_sort_sorted; unfold sticky_cmp; intros; lia.
Qed.

(** ** The paginator *)

Lemma ceil_div_0 n : ceil_div 0 n = 0%nat.
Proof.
  unfold ceil_div. destruct n as [|n]; [done|].
  apply Nat.div_small. lia.
Qed.

Lemma ceil_div_step a n :
  (0 < a)%nat → (0 < n)%nat → ceil_div a n = S (ceil_div (a - n) n).
Proof.
  intros Ha Hn. unfold ceil_div.
  destruct (decide (a ≤ n)%nat) as [Hle|Hgt].
  - replace (a - n)%nat with 0%nat by lia.
    rewrite (Nat.div_small (0 + (n - 1)) n) by lia.
    symmetry. apply (Nat.div_unique _ _ _ (a - 1)); lia.
  - replace (a + (n - 1))%nat with ((a - n + (n - 1)) + 1 * n)%nat by lia.
    rewrite Nat.div_add by lia. lia.
Qed.

(** [ceil_div a n] is the ceiling of [a / n]. *)
Lemma ceil_div_ceiling a n :
  (0 < n)%nat →
  (a ≤ ceil_div a n * n)%nat ∧ (ceil_div a n * n < a + n)%nat.
Proof.
  intros Hn. unfold ceil_div.
  pose proof (Nat.div_mod (a + (n - 1)) n ltac:(lia)) as Hdm.
  pose proof (Nat.mod_upper_bound (a + (n - 1)) n ltac:(lia)) as Hlt.
  split; nia.
Qed.

Lemma chunks_go_concat k n l :
  (0 < n)%nat → (length l ≤ k)%nat → concat (chunks_go k n l) = l.
Proof.
  intros Hn. revert l. induction k as [|k IH]; intros l Hl.
  - destruct l; [done|simpl in Hl; lia].
  - destruct l as [|x l]; [done|].
    cbn [chunks_go concat]. rewrite IH.
    + apply take_drop.
    + rewrite length_drop. simpl in Hl. simpl. lia.
Qed.

Lemma chunks_go_length k n l :
  (0 < n)%nat → (length l ≤ k)%nat →
  length (chunks_go k n l) = ceil_div (length l) n.
Proof.
  intros Hn. revert l. induction k as [|k IH]; intros l Hl.
  - destruct l; [|simpl in Hl; lia]. by rewrite ceil_div_0.
  - destruct l as [|x l]; [by rewrite ceil_div_0|].
    rewrite (ceil_div_step (length (x :: l)) n) by (simpl; lia).
    cbn [chunks_go]. rewrite length_cons, IH.
    + by rewrite length_drop.
    + rewrite length_drop. simpl in Hl. simpl. lia.
Qed.


Lemma items_imap_page_of base o total (cs : list (list Post)) :
  items <$> imap (page_of base o total) cs = cs.
Proof.
  rewrite fmap_imap. induction cs as [|c cs IH] using rev_ind; [done|].
  rewrite imap_app, IH. simpl. done.
Qed.

Lemma pagination_pages base q o :
  0 < Options.perPage o →
  pagination base q o =
    Ok (imap (page_of base o (ceil_div (length (data q)) (Z.to_nat (Options.perPage o))))
             (chunks (Z.to_nat (Options.perPage o)) (data q))).
Proof.
  intros Hp. unfold pagination.
  destruct (Options.perPage o <=? 0) eqn:Hle; [apply Z.leb_le in Hle; lia|].
  done.
Qed.

Lemma pagination_rejects base q o :
  Options.perPage o ≤ 0 → pagination base q o = Err ConfigurationError.
Proof.
  intros Hp. unfold pagination.
  destruct (Options.perPage o <=? 0) eqn:Hle; [done|apply Z.leb_gt in Hle; lia].
Qed.

(** ** The generator, one stage after the other *)

Lemma generator_stages config q :
  generator config (mkLocals (Some q)) =
    if decide (selected (data q) = []) then Ok []
    else
      fin ← ordered config (selected (data q));
      pagination "explorations/" (mkQuery fin) (options_of config).
Proof.
  unfold generator. cbn [all_posts]. rewrite explorationsPosts_selected.
  cbn [mbind Result_bind data].
  destruct (decide (selected (data q) = [])) as [->|Hne]; [done|].
  destruct (selected (data q)) as [|x sel] eqn:Hsel; [done|].
  cbn [length Nat.eqb]. unfold ordered.
  destruct (query_sort _ _); done.
Qed.

Lemma query_sort_Ok orderBy q q' :
  query_sort orderBy q = Ok q' →
  data q' = array_sort (order_cmp (parse_order orderBy).1 (parse_order orderBy).2)
                       (data q).
Proof.
  unfold query_sort. destruct (parse_order orderBy) as [f desc].
  destruct (forallb _ _); [|discriminate]. by intros [= <-].
Qed.

Lemma ordered_Ok config sel fin :
  ordered config sel = Ok fin →
  let orderBy := or_str (order_by (index_generator config)) "-date" in
  fin = array_sort sticky_cmp
          (array_sort (order_cmp (parse_order orderBy).1 (parse_order orderBy).2) sel).
Proof.
  unfold ordered. intros H.
  destruct (query_sort _ _) as [q'|] eqn:Hq; [|discriminate].
  apply query_sort_Ok in Hq. simpl in *. injection H as <-. by rewrite Hq.
Qed.

Lemma ordered_perm config sel fin : ordered config sel = Ok fin → fin ≡ₚ sel.
Proof.
  intros H. rewrite (ordered_Ok _ _ _ H). cbn zeta.
  by rewrite !array_sort_perm.
Qed.

Lemma ordered_sorted config sel fin :
  ordered config sel = Ok fin → StronglySorted (λ a b, sticky_cmp a b ≤ 0) fin.
Proof.
  intros H. rewrite (ordered_Ok _ _ _ H). apply sticky_sorted.
Qed.

Lemma string_compare_refl s : String.compare s s = Eq.
Proof.
  induction s as [|c s IH]; [done|]. simpl.
  unfold Ascii.compare. by rewrite N.compare_refl.
Qed.

Lemma value_compare_refl v : value_compare v v = Eq.
Proof.
  destruct v as [n|s|t|[|]]; simpl;
    auto using Z.compare_refl, string_compare_refl.
Qed.

Lemma order_cmp_same_key f desc a b :
  field f a = field f b → order_cmp f desc a b = 0.
Proof.
  intros Hk. unfold order_cmp. rewrite Hk.
  destruct (field f b); [|done].
  rewrite value_compare_refl. by destruct desc.
Qed.

(** The items of one sticky priority and one primary key come out of the
    two passes in the order they went in. *)
Lemma ordered_stable config sel fin (s : Z) (k : option Value) :
  ordered config sel = Ok fin →
  filter (λ p, sticky0 p = s ∧ primary_key config p = k) fin =
  filter (λ p, sticky0 p = s ∧ primary_key config p = k) sel.
Proof.
  intros H. rewrite (ordered_Ok _ _ _ H). cbn zeta.
  rewrite array_sort_stable.
  - rewrite array_sort_stable; [done|].
    intros a b [_ Ha] [_ Hb]. unfold primary_key in *.
    rewrite order_cmp_same_key; [done|congruence].
  - intros a b [Ha _] [Hb _]. unfold sticky_cmp. lia.
Qed.

Lemma all_items_pages_of config fin :
  0 < perPage_of config → all_items (pages_of config fin) = fin.
Proof.
  intros Hp. unfold all_items, pages_of. cbn zeta.
  rewrite items_imap_page_of. apply chunks_go_concat; lia.
Qed.

Lemma length_pages_of config fin :
  0 < perPage_of config →
  length (pages_of config fin) =
    ceil_div (length fin) (Z.to_nat (perPage_of config)).
Proof.
  intros Hp. unfold pages_of. cbn zeta.
  rewrite length_imap. apply chunks_go_length; lia.
Qed.

Lemma pages_of_lookup config fin i p :
  pages_of config fin !! i = Some p →
  index p = S i ∧
  totalPages p = ceil_div (length fin) (Z.to_nat (perPage_of config)) ∧
  path p = address "explorations/" (Options.format (options_of config)) (S i).
Proof.
  unfold pages_of. cbn zeta. rewrite list_lookup_imap.
  destruct (chunks _ _ !! i); [|discriminate]. by intros [= <-].
Qed.

(** With a positive capacity and an ordering that succeeds, the generator
    returns the pages cut out of the ordered sequence. *)
Lemma generator_pages config q fin :
  0 < perPage_of config →
  ordered config (selected (data q)) = Ok fin →
  generator config (mkLocals (Some q)) = Ok (pages_of config fin).
Proof.
  intros Hp Ho. rewrite generator_stages.
  destruct (decide (selected (data q) = [])) as [He|Hne].
  - apply ordered_perm in Ho. rewrite He in Ho.
    apply Permutation_nil_r in Ho. by subst.
  - rewrite Ho. cbn [mbind Result_bind]. by rewrite pagination_pages.
Qed.

(** What a successful run returned. *)
Lemma generator_Ok config q pages :
  generator config (mkLocals (Some q)) = Ok pages →
  (selected (data q) = [] ∧ pages = []) ∨
  (∃ fin, ordered config (selected (data q)) = Ok fin ∧
          0 < perPage_of config ∧ pages = pages_of config fin).
Proof.
  rewrite generator_stages.
  destruct (decide (selected (data q) = [])) as [He|Hne].
  - intros [= <-]. by left.
  - destruct (ordered config (selected (data q))) as [fin|] eqn:Ho; [|discriminate].
    cbn [mbind Result_bind]. intros Hpg. right. exists fin.
    destruct (decide (0 < perPage_of config)) as [Hp|Hp].
    + rewrite pagination_pages in Hpg by done. injection Hpg as <-. done.
    + rewrite pagination_rejects in Hpg; [discriminate|]. simpl. lia.
Qed.

Lemma index_pages_of config fin :
  index <$> pages_of config fin = seq 1 (length (pages_of config fin)).
Proof.
  apply list_eq. intros i. rewrite list_lookup_fmap.
  destruct (pages_of config fin !! i) as [p|] eqn:Hp; simpl.
  - destruct (pages_of_lookup _ _ _ _ Hp) as (-> & _).
    symmetry. apply lookup_seq. split; [done|]. by eapply lookup_lt_Some.
  - symmetry. apply lookup_ge_None. rewrite length_seq.
    by apply lookup_ge_None.
Qed.

(** ** The pages *)

(** C1: with a positive capacity, the generator returns pages numbered
    1, 2, ... whose item sequences, concatenated in that order, are exactly
    the filtered-and-ordered sequence, itself a rearrangement of the
    filtered items (none lost, none repeated). *)
Theorem pages_concat_exact config q fin :
  0 < perPage_of config →
  ordered config (selected (data q)) = Ok fin →
  ∃ pages, generator config (mkLocals (Some q)) = Ok pages ∧
    index <$> pages = seq 1 (length pages) ∧
    all_items pages = fin ∧
    fin ≡ₚ selected (data q).
Proof.
  intros Hp Ho. exists (pages_of config fin).
  split; [by apply generator_pages|].
  split; [apply index_pages_of|].
  split; [by apply all_items_pages_of|].
  by eapply ordered_perm.
Qed.

Lemma pages_concat_exact_witness :
  ∃ pages,
    generator (config_per_page 2) (mkLocals (Some (mkQuery sample_ABC))) = Ok pages ∧
    index <$> pages = seq 1 (length pages) ∧
    all_items pages =
      [post "B" 20 (Some 1); post "A" 30 (Some 0); post "C" 10 None] ∧
    [post "B" 20 (Some 1); post "A" 30 (Some 0); post "C" 10 None]
      ≡ₚ selected (data (mkQuery sample_ABC)).
Proof.
  apply (pages_concat_exact (config_per_page 2) (mkQuery sample_ABC)).
  - reflexivity.
  - vm_compute. reflexivity.
Defined.

(** C6: with a positive capacity, every page carries the same
    [totalPages], which is the number of pages and the ceiling of the
    filtered count over the capacity; with no filtered item there is no
    page. *)
Theorem totalPages_ceiling config q fin :
  0 < perPage_of config →
  ordered config (selected (data q)) = Ok fin →
  ∃ pages total, generator config (mkLocals (Some q)) = Ok pages ∧
    Forall (λ p, totalPages p = total) pages ∧
    length pages = total ∧
    (Z.of_nat total - 1) * perPage_of config
      < Z.of_nat (length (selected (data q)))
      ≤ Z.of_nat total * perPage_of config ∧
    (length (selected (data q)) = 0%nat → pages = []).
Proof.
  intros Hp Ho.
  exists (pages_of config fin),
         (ceil_div (length fin) (Z.to_nat (perPage_of config))).
  split; [by apply generator_pages|].
  split.
  { apply Forall_forall. intros p Hin.
    apply list_elem_of_lookup in Hin as [i Hi].
    by destruct (pages_of_lookup _ _ _ _ Hi) as (_ & -> & _). }
  split; [by apply length_pages_of|].
  pose proof (ordered_perm _ _ _ Ho) as Hperm.
  rewrite <- (Permutation_length Hperm).
  split.
  - destruct (ceil_div_ceiling (length fin) (Z.to_nat (perPage_of config)))
      as [Hle Hlt]; [lia|].
    set (t := ceil_div _ _) in *. nia.
  - intros Hn. apply nil_length_inv. rewrite length_pages_of by done.
    rewrite Hn. apply ceil_div_0.
Qed.

Lemma totalPages_ceiling_witness :
  ∃ pages total,
    generator default_config (mkLocals (Some (mkQuery twelve))) = Ok pages ∧
    Forall (λ p, totalPages p = total) pages ∧
    length pages = total ∧
    (Z.of_nat total - 1) * perPage_of default_config
      < Z.of_nat (length (selected (data (mkQuery twelve))))
      ≤ Z.of_nat total * perPage_of default_config ∧
    (length (selected (data (mkQuery twelve))) = 0%nat → pages = []).
Proof.
  apply (totalPages_ceiling default_config (mkQuery twelve) twelve).
  - reflexivity.
  - vm_compute. reflexivity.
Defined.

(** Text without [%] in front of a format is copied. *)
Lemma format_scan_plain d fmt pending num :
  has_percent d = false →
  format_scan (d +:+ fmt) pending num =
    ((d +:+ (format_scan fmt pending num).1), (format_scan fmt pending num).2).
Proof.
  induction d as [|c d IH]; intros Hd.
  - change ("" +:+ fmt) with fmt.
    destruct (format_scan fmt pending num). reflexivity.
  - cbn [has_percent] in Hd. apply orb_false_iff in Hd as [Hc Hd].
    change (String c d +:+ fmt) with (String c (d +:+ fmt)).
    cbn [format_scan]. rewrite Hc, IH by done. reflexivity.
Qed.

Lemma util_format_plain d num :
  has_percent d = false →
  util_format (d +:+ "/%d/") num = d +:+ "/" +:+ num +:+ "/".
Proof.
  intros Hd. unfold util_format. by rewrite format_scan_plain.
Qed.

(** C7, as amended: the page at position 1 has the base address
    ["explorations/"] with nothing added; when the pagination directory
    holds no [%], the page at position [i] from 2 on has the base followed
    by the pagination directory, ["/"], [i] and ["/"]. *)
Theorem page_addresses config locals pages i p :
  generator config locals = Ok pages →
  pages !! i = Some p →
  index p = S i ∧
  (i = 0%nat → path p = "explorations/") ∧
  (i ≠ 0%nat → has_percent (paginationDir_of config) = false →
   path p =
     "explorations/" +:+ paginationDir_of config +:+ "/" +:+ pretty (S i) +:+ "/").
Proof.
  destruct locals as [[q|]]; [|intros [= <-]; by rewrite lookup_nil].
  intros Hg Hi. apply generator_Ok in Hg as [[_ ->]|(fin & _ & _ & ->)].
  { by rewrite lookup_nil in Hi. }
  destruct (pages_of_lookup _ _ _ _ Hi) as (Hidx & _ & Hpath).
  split; [done|]. rewrite Hpath. unfold address. split.
  - by intros ->.
  - intros Hi0 Hd. destruct i as [|i]; [done|].
    cbn [Nat.eqb options_of Options.format].
    by rewrite util_format_plain.
Qed.

Lemma page_addresses_witness :
  let p2 := page_of "explorations/" (options_of (config_per_page 2)) 2 1
                    [post "C" 10 None] in
  index p2 = 2%nat ∧ path p2 = "explorations/page/2/".
Proof.
  intros p2.
  destruct (page_addresses (config_per_page 2)
              (mkLocals (Some (mkQuery sample_ABC)))
              [page_of "explorations/" (options_of (config_per_page 2)) 2 0
                       [post "B" 20 (Some 1); post "A" 30 (Some 0)]; p2] 1%nat p2)
    as (Hindex & _ & Hpath).
  - vm_compute. reflexivity.
  - reflexivity.
  - split; [exact Hindex|]. apply Hpath; [discriminate|reflexivity].
Defined.

(** C7 as stated fails: the pagination directory is part of a format
    string, so a directive in it takes the page number: with the directory
    ["p%d"] the second page is at ["explorations/p2/%d/"], not at the
    base followed by the directory, ["/"], 2 and ["/"]. *)
Lemma percent_directory_address :
  path <$> match generator config_percent (mkLocals (Some (mkQuery sample_ABC))) with
           | Ok pages => pages
           | Err _ => []
           end
    = ["explorations/"; "explorations/p2/%d/"] ∧
  "explorations/p2/%d/" ≠
    "explorations/" +:+ paginationDir_of config_percent +:+ "/" +:+ pretty 2%nat +:+ "/".
Proof. vm_compute. split; [reflexivity|discriminate]. Qed.

(** ** The order *)

(** C3: in the items of the pages taken in page order, a post with a
    strictly greater sticky priority (a missing one counting as 0) stands
    before a post with a smaller one, whatever their dates or other sort
    keys. *)
Theorem sticky_first config locals pages i j a b :
  generator config locals = Ok pages →
  all_items pages !! i = Some a →
  all_items pages !! j = Some b →
  sticky0 b < sticky0 a →
  (i < j)%nat.
Proof.
  destruct locals as [[q|]]; [|intros [= <-] Ha; by destruct i].
  intros Hg Ha Hb Hlt.
  apply generator_Ok in Hg as [[_ ->]|(fin & Ho & Hp & ->)].
  { by destruct i. }
  rewrite all_items_pages_of in Ha, Hb by done.
  pose proof (ordered_sorted _ _ _ Ho) as Hs.
  destruct (decide (i < j)%nat) as [|Hge]; [done|].
  destruct (decide (i = j)) as [->|Hne].
  - rewrite Ha in Hb. injection Hb as ->. lia.
  - pose proof (StronglySorted_lookup_lt _ _ j i b a Hs Hb Ha ltac:(lia)) as Hba.
    unfold sticky_cmp in Hba. lia.
Qed.

Lemma sticky_first_witness : (0 < 1)%nat.
Proof.
  apply (sticky_first default_config (mkLocals (Some (mkQuery sample_ABC)))
           [page_of "explorations/" (options_of default_config) 1 0
              [post "B" 20 (Some 1); post "A" 30 (Some 0); post "C" 10 None]]
           0%nat 1%nat (post "B" 20 (Some 1)) (post "A" 30 (Some 0))).
  - vm_compute. reflexivity.
  - reflexivity.
  - reflexivity.
  - reflexivity.
Defined.

Lemma before_filter (P : Post → Prop) `{!∀ x, Decision (P x)} a b l :
  P a → P b → before a b l ↔ before a b (filter P l).
Proof.
  intros Ha Hb. unfold before. split.
  - intros (l1 & l2 & l3 & ->). exists (filter P l1), (filter P l2), (filter P l3).
    rewrite filter_app, filter_cons_True, filter_app, filter_cons_True; done.
  - induction l as [|x l IH]; intros (l1 & l2 & l3 & Hl).
    + by destruct l1.
    + rewrite filter_cons in Hl. destruct (decide (P x)) as [Hx|Hx].
      * destruct l1 as [|y l1]; simpl in Hl; injection Hl as Hx' Hl.
        -- subst x. assert (Hin : b ∈ filter P l).
           { rewrite Hl. apply elem_of_app. right. apply list_elem_of_here. }
           apply list_elem_of_filter in Hin as [_ Hin].
           apply list_elem_of_split in Hin as (k1 & k2 & ->).
           by exists [], k1, k2.
        -- subst y. destruct IH as (k1 & k2 & k3 & ->); [by exists l1, l2, l3|].
           by exists (x :: k1), k2, k3.
      * destruct IH as (k1 & k2 & k3 & ->); [by exists l1, l2, l3|].
        by exists (x :: k1), k2, k3.
Qed.

(** C8: for two posts with the same sticky priority (a missing one
    counting as 0) and the same primary-sort key, one stands before the
    other in the pages, taken in page order, exactly when it does in the
    filtered sequence: both passes keep their order. *)
Theorem stable_order config q pages a b :
  generator config (mkLocals (Some q)) = Ok pages →
  sticky0 a = sticky0 b →
  primary_key config a = primary_key config b →
  before a b (all_items pages) ↔ before a b (selected (data q)).
Proof.
  intros Hg Hs Hk.
  apply generator_Ok in Hg as [[He ->]|(fin & Ho & Hp & ->)].
  { by rewrite He. }
  rewrite all_items_pages_of by done.
  pose proof (before_filter
    (λ p, sticky0 p = sticky0 a ∧ primary_key config p = primary_key config a)
    a b) as HF.
  rewrite (HF fin (conj eq_refl eq_refl) (conj (eq_sym Hs) (eq_sym Hk))).
  rewrite (HF (selected (data q)) (conj eq_refl eq_refl)
              (conj (eq_sym Hs) (eq_sym Hk))).
  by rewrite (ordered_stable _ _ _ _ _ Ho).
Qed.

Lemma stable_order_witness :
  before (post "X" 5 None) (post "Y" 5 (Some 0))
    [post "Z" 9 (Some 1); post "X" 5 None; post "Y" 5 (Some 0)].
Proof.
  apply (stable_order default_config (mkQuery sample_tie)
           [page_of "explorations/" (options_of default_config) 1 0
              [post "Z" 9 (Some 1); post "X" 5 None; post "Y" 5 (Some 0)]]
           (post "X" 5 None) (post "Y" 5 (Some 0))).
  - vm_compute. reflexivity.
  - reflexivity.
  - reflexivity.
  - exists [], [], [post "Z" 9 (Some 1)]. reflexivity.
Defined.

(** ** Empty results and configuration *)

(** C5: when [all_posts] is absent, or no post has the category, the
    generator returns the empty sequence of pages, not a failure, whatever
    the configuration is. *)
Theorem empty_result_is_normal config locals :
  all_posts locals = None ∨
  (∃ q, all_posts locals = Some q ∧
        Forall (λ p, ¬ in_category "Explorations" p) (data q)) →
  generator config locals = Ok [].
Proof.
  destruct locals as [posts]. simpl. intros [->|(q & -> & Hnone)]; [done|].
  rewrite generator_stages. rewrite decide_True; [done|].
  unfold selected. induction Hnone as [|x l Hx _ IH]; [done|].
  by rewrite filter_cons_False.
Qed.

Lemma empty_result_is_normal_witness :
  generator (config_per_page (-3)) (mkLocals None) = Ok [] ∧
  generator (config_per_page (-3)) (mkLocals (Some (mkQuery sample_unfit))) = Ok [].
Proof.
  split.
  - apply (empty_result_is_normal (config_per_page (-3)) (mkLocals None)).
    left. reflexivity.
  - apply (empty_result_is_normal (config_per_page (-3))
             (mkLocals (Some (mkQuery sample_unfit)))).
    right. exists (mkQuery sample_unfit). split; [reflexivity|].
    repeat constructor; intros (l & c & Hl & Hc & Hn); simpl in Hl;
      try discriminate Hl; injection Hl as <-;
      repeat (apply elem_of_cons in Hc as [->|Hc]; [discriminate Hn|]);
      by apply elem_of_nil in Hc.
Defined.

Lemma ordered_Err config sel e :
  ordered config sel = Err e → e = ConfigurationError.
Proof.
  unfold ordered, query_sort. destruct (parse_order _) as [f desc].
  destruct (forallb _ _); simpl; [discriminate|]. by intros [= <-].
Qed.

(** C4, as amended: the generator does not check [per_page] itself. A
    [per_page] that is 0 or absent is replaced by 10: the generator
    returns what it returns for a [per_page] of 10. When the collection is
    absent or holds no post of the category, the result is the empty
    sequence of pages whatever [per_page] is. Every other [per_page], a
    negative one included, reaches the paginator unchanged as its
    [perPage] option, once the posts are filtered and ordered. *)
Theorem perPage_handling config locals :
  (per_page (index_generator config) = None ∨
   per_page (index_generator config) = Some 0 →
     generator config locals = generator (with_per_page 10 config) locals) ∧
  (all_posts locals = None ∨
   (∃ q, all_posts locals = Some q ∧ selected (data q) = []) →
     generator config locals = Ok []) ∧
  (∀ n q, per_page (index_generator config) = Some n → n ≠ 0 →
     all_posts locals = Some q → selected (data q) ≠ [] →
     Options.perPage (options_of config) = n ∧
     generator config locals =
       fin ← ordered config (selected (data q));
       pagination "explorations/" (mkQuery fin) (options_of config)).
Proof.
  destruct locals as [posts]. cbn [all_posts]. split; [|split].
  - intros Hpp. unfold generator. cbn [all_posts].
    destruct posts as [q|]; [|done].
    destruct (explorationsPosts q) as [sel|]; [|done]. cbn [mbind Result_bind].
    destruct (length (data sel) =? 0)%nat; [done|].
    destruct config as [[ob pp] dir]. unfold with_per_page. simpl in *.
    by destruct Hpp as [->| ->].
  - intros [->|(q & -> & He)]; [done|].
    by rewrite generator_stages, decide_True.
  - intros n q Hn Hn0 -> Hne. split.
    + cbn [options_of Options.perPage]. unfold perPage_of. rewrite Hn.
      cbn [or_num]. by rewrite (proj2 (Z.eqb_neq n 0) Hn0).
    + by rewrite generator_stages, decide_False.
Qed.

Lemma perPage_handling_witness :
  generator (config_per_page 0) (mkLocals (Some (mkQuery sample_ABC)))
    = generator (with_per_page 10 (config_per_page 0))
        (mkLocals (Some (mkQuery sample_ABC))) ∧
  generator (config_per_page (-3)) (mkLocals (Some (mkQuery sample_unfit)))
    = Ok [] ∧
  Options.perPage (options_of (config_per_page (-3))) = -3 ∧
  generator (config_per_page (-3)) (mkLocals (Some (mkQuery sample_ABC))) =
    fin ← ordered (config_per_page (-3)) (selected sample_ABC);
    pagination "explorations/" (mkQuery fin) (options_of (config_per_page (-3))).
Proof.
  split; [|split].
  - apply (proj1 (perPage_handling (config_per_page 0)
                    (mkLocals (Some (mkQuery sample_ABC))))).
    right. reflexivity.
  - apply (proj1 (proj2 (perPage_handling (config_per_page (-3))
                           (mkLocals (Some (mkQuery sample_unfit)))))).
    right. exists (mkQuery sample_unfit). split; reflexivity.
  - apply (proj2 (proj2 (perPage_handling (config_per_page (-3))
                           (mkLocals (Some (mkQuery sample_ABC)))))
             (-3) (mkQuery sample_ABC)).
    + reflexivity.
    + discriminate.
    + reflexivity.
    + vm_compute. discriminate.
Defined.

(** C4 as stated fails: a [per_page] of 0 raises no failure, the generator
    silently uses 10 instead; and with no post of the category a negative
    [per_page] raises no failure either. *)
Lemma perPage_zero_coerced :
  per_page (index_generator (config_per_page 0)) = Some 0 ∧
  generator (config_per_page 0) (mkLocals (Some (mkQuery sample_ABC))) =
    Ok [page_of "explorations/" (options_of (config_per_page 10)) 1 0
          [post "B" 20 (Some 1); post "A" 30 (Some 0); post "C" 10 None]] ∧
  generator (config_per_page 0) (mkLocals (Some (mkQuery sample_ABC))) =
    generator (config_per_page 10) (mkLocals (Some (mkQuery sample_ABC))) ∧
  generator (config_per_page (-3)) (mkLocals (Some (mkQuery sample_unfit))) = Ok [].
Proof. vm_compute. done. Qed.

(** ** The hidden flag *)

Lemma is_exploration_set_hidden h p :
  is_exploration (set_hidden h p) = is_exploration p.
Proof. reflexivity. Qed.











(** Hidden posts of the category are listed. *)
Example hidden_posts_listed :
  all_items <$>
    match generator default_config (mkLocals (Some (mkQuery sample_hidden))) with
    | Ok pages => Some pages
    | Err _ => None
    end
  = Some (set_hidden (Some true) <$>
            [post "B" 20 (Some 1); post "A" 30 (Some 0); post "C" 10 None]).
Proof. vm_compute. reflexivity. Qed.

(** ** The ordering succeeds by default, and the scenarios of the site *)

(** Every post has a date: with the default order the two passes cannot
    fail. *)
Lemma ordered_default sel config :
  or_str (order_by (index_generator config)) "-date" = "-date" →
  ∃ fin, ordered config sel = Ok fin.
Proof.
  intros Hd. unfold ordered, query_sort. rewrite Hd. cbn [parse_order data].
  replace (forallb _ sel) with true; [by eexists|].
  symmetry. apply forallb_forall. intros p _.
  apply bool_decide_eq_true. by eexists.
Qed.

(** Newest first, then the pinned post in front. *)
Example scenario_pinned :
  all_items <$>
    match generator default_config (mkLocals (Some (mkQuery sample_ABC))) with
    | Ok pages => Some pages
    | Err _ => None
    end
  = Some [post "B" 20 (Some 1); post "A" 30 (Some 0); post "C" 10 None].
Proof. vm_compute. reflexivity. Qed.

(** Twelve posts, ten per page: two pages. *)
Example scenario_twelve :
  match generator default_config (mkLocals (Some (mkQuery twelve))) with
  | Ok pages =>
      (λ p, (length (items p), index p, totalPages p, path p)) <$> pages
  | Err _ => []
  end
  = [(10, 1, 2, "explorations/"); (2, 2, 2, "explorations/page/2/")]%nat.
Proof. vm_compute. reflexivity. Qed.

(** An order field that the posts do not have is rejected. *)
Example scenario_unknown_field :
  generator (mkConfig (mkIndexGenerator (Some "-weight") None) None)
            (mkLocals (Some (mkQuery sample_ABC)))
  = Err ConfigurationError.
Proof. reflexivity. Qed.

(** * Further properties of the generator *)

(** ** The filter judges each post on its own *)

(** X1: the filter of a collection made of two parts is the filter of the
    first part followed by the filter of the second: whether a post is
    kept does not depend on the posts around it. *)
Theorem selector_append (l1 l2 : list Post) :
  ∃ s1 s2,
    explorationsPosts (mkQuery l1) = Ok (mkQuery s1) ∧
    explorationsPosts (mkQuery l2) = Ok (mkQuery s2) ∧
    explorationsPosts (mkQuery (l1 ++ l2)) = Ok (mkQuery (s1 ++ s2)).
Proof.
  exists (selected l1), (selected l2).
  rewrite !explorationsPosts_selected. cbn [data].
  unfold selected. by rewrite filter_app.
Qed.

(** X2: filtering the result of the filter again changes nothing. *)
Theorem selector_idempotent (q : Query) :
  explorationsPosts q ≫= explorationsPosts = explorationsPosts q.
Proof.
  rewrite explorationsPosts_selected. cbn [mbind Result_bind].
  rewrite explorationsPosts_selected. cbn [data]. unfold selected.
  do 2 f_equal. rewrite list_filter_filter. apply list_filter_iff. tauto.
Qed.

(** X3: a post without the category, wherever it stands in the collection,
    has no influence on what the generator returns. *)
Theorem unrelated_post_ignored config (l1 l2 : list Post) (p : Post) :
  ¬ in_category "Explorations" p →
  generator config (mkLocals (Some (mkQuery (l1 ++ p :: l2)))) =
  generator config (mkLocals (Some (mkQuery (l1 ++ l2)))).
Proof.
  intros Hp. rewrite !generator_stages. cbn [data]. unfold selected.
  by rewrite !filter_app, filter_cons_False.
Qed.

Lemma unrelated_post_ignored_witness :
  generator default_config
    (mkLocals (Some (mkQuery ([post "A" 30 (Some 0)] ++ other_post ::
                                [post "B" 20 (Some 1)])))) =
  generator default_config
    (mkLocals (Some (mkQuery ([post "A" 30 (Some 0)] ++ [post "B" 20 (Some 1)])))).
Proof.
  apply (unrelated_post_ignored default_config
           [post "A" 30 (Some 0)] [post "B" 20 (Some 1)] other_post).
  vm_compute. intros (l & c & Hl & Hc & Hn). injection Hl as <-.
  apply elem_of_cons in Hc as [->|Hc]; [discriminate Hn|].
  by apply elem_of_nil in Hc.
Defined.

(** ** The sticky pass (line 30) *)

Lemma array_sort_fixed {A} (cmp : A → A → Z) (l : list A) :
  StronglySorted (λ a b, cmp a b ≤ 0) l → array_sort cmp l = l.
Proof.
  induction 1 as [|x l Hs IH Hx]; [done|].
  cbn [array_sort foldr]. fold (array_sort cmp l). rewrite IH.
  destruct Hx as [|y l' Hxy _]; [done|].
  cbn [sort_insert]. by rewrite (proj2 (Z.leb_le _ _) Hxy).
Qed.

Lemma StronglySorted_weaken {A} (R1 R2 : relation A) (l : list A) :
  (∀ a b, R1 a b → R2 a b) → StronglySorted R1 l → StronglySorted R2 l.
Proof.
  intros HR. induction 1 as [|x l Hs IH Hx]; constructor; [done|].
  eapply Forall_impl; [exact Hx|]. intros y. apply HR.
Qed.

Lemma lookup_before (l : list Post) i j x y :
  l !! i = Some x → l !! j = Some y → (i < j)%nat → before x y l.
Proof.
  intros Hi Hj Hlt.
  assert (Hj' : drop (S i) l !! (j - S i)%nat = Some y).
  { rewrite lookup_drop. by replace (S i + (j - S i))%nat with j by lia. }
  exists (take i l), (take (j - S i) (drop (S i) l)),
         (drop (S (j - S i)) (drop (S i) l)).
  by rewrite (take_drop_middle _ _ _ Hj'), (take_drop_middle _ _ _ Hi).
Qed.

Lemma before_sorted (R : relation Post) (l : list Post) x y :
  StronglySorted R l → before x y l → R x y.
Proof.
  intros Hs (l1 & l2 & l3 & ->).
  induction l1 as [|z l1 IH]; simpl in Hs.
  - apply StronglySorted_inv in Hs as [_ Hx].
    rewrite Forall_forall in Hx. apply Hx.
    apply elem_of_app. right. apply list_elem_of_here.
  - apply StronglySorted_inv in Hs as [Hs _]. by apply IH.
Qed.

(** Among posts of one priority the sticky pass keeps every order relation
    that held before it. *)
Lemma sticky_pass_keeps (R : relation Post) (l : list Post) x y :
  StronglySorted R l →
  before x y (array_sort sticky_cmp l) →
  sticky0 x = sticky0 y →
  R x y.
Proof.
  intros Hs Hb Hxy. apply (before_sorted R l); [done|].
  pose proof (before_filter (λ p, sticky0 p = sticky0 x) x y) as HF.
  apply (proj2 (HF l eq_refl (eq_sym Hxy))).
  rewrite <- (array_sort_stable sticky_cmp (λ p, sticky0 p = sticky0 x) l).
  - by apply (proj1 (HF _ eq_refl (eq_sym Hxy))).
  - intros a b Ha Hb'. unfold sticky_cmp. lia.
Qed.

Lemma sticky0_explicit p : sticky0 (explicit_sticky p) = sticky0 p.
Proof.
  unfold sticky0. cbn [explicit_sticky sticky]. by destruct (sticky p).
Qed.

(** Two lists in non-increasing priority order that hold, for every
    priority, the same posts in the same order are one list. *)
Lemma sorted_groups_unique (l1 l2 : list Post) :
  StronglySorted (λ a b, sticky0 b ≤ sticky0 a) l1 →
  StronglySorted (λ a b, sticky0 b ≤ sticky0 a) l2 →
  (∀ s, filter (λ p, sticky0 p = s) l1 = filter (λ p, sticky0 p = s) l2) →
  l1 = l2.
Proof.
  intros Hs1. revert l2. induction Hs1 as [|x l1 Hs1 IH Hx]; intros l2 Hs2 Hf.
  - destruct l2 as [|y l2]; [done|].
    specialize (Hf (sticky0 y)). by rewrite filter_cons_True in Hf.
  - destruct Hs2 as [|y l2 Hs2 Hy].
    { specialize (Hf (sticky0 x)). by rewrite filter_cons_True in Hf. }
    assert (Hxy : sticky0 x = sticky0 y).
    { apply Z.le_antisymm.
      - assert (Hin : x ∈ y :: l2).
        { eapply (list_elem_of_filter (λ p, sticky0 p = sticky0 x) _ x).
          rewrite <- Hf, filter_cons_True by done. apply list_elem_of_here. }
        apply elem_of_cons in Hin as [->|Hin]; [done|].
        rewrite Forall_forall in Hy. by apply Hy.
      - assert (Hin : y ∈ x :: l1).
        { eapply (list_elem_of_filter (λ p, sticky0 p = sticky0 y) _ y).
          rewrite Hf, filter_cons_True by done. apply list_elem_of_here. }
        apply elem_of_cons in Hin as [->|Hin]; [done|].
        rewrite Forall_forall in Hx. by apply Hx. }
    pose proof (Hf (sticky0 x)) as Hk.
    rewrite !filter_cons_True in Hk by done. injection Hk as <- Hk.
    f_equal. apply IH; [done|]. intros s.
    destruct (decide (sticky0 x = s)) as [<-|Hne]; [done|].
    specialize (Hf s). by rewrite !filter_cons_False in Hf.
Qed.

(** X4: among posts of one sticky priority (a missing one counting as 0),
    the sticky pass keeps every order relation that held between earlier
    and later posts before it: if the list it is given is sorted for [R],
    two posts of equal priority that follow each other in its result are
    related by [R]. *)
Theorem sticky_pass_keeps_prior_order (R : relation Post) (l : list Post)
    (i j : nat) (x y : Post) :
  StronglySorted R l →
  array_sort sticky_cmp l !! i = Some x →
  array_sort sticky_cmp l !! j = Some y →
  (i < j)%nat →
  sticky0 x = sticky0 y →
  R x y.
Proof.
  intros Hs Hi Hj Hlt Hxy. apply (sticky_pass_keeps R l); [done| |done].
  by eapply lookup_before.
Qed.

Lemma sticky_pass_keeps_prior_order_witness :
  date (post "Q" 2 None) ≤ date (post "R" 3 (Some 0)).
Proof.
  apply (sticky_pass_keeps_prior_order
           (λ a b, date b ≤ date a)
           [post "R" 3 (Some 0); post "Q" 2 None; post "S" 1 (Some 2)]
           1 2 (post "R" 3 (Some 0)) (post "Q" 2 None)).
  - repeat constructor; simpl; lia.
  - reflexivity.
  - reflexivity.
  - lia.
  - reflexivity.
Defined.

(** X5: a list that already stands in non-increasing sticky priority (for
    instance one where no post is pinned) is returned by the sticky pass
    unchanged. *)
Theorem sticky_pass_fixed (l : list Post) :
  StronglySorted (λ a b, sticky0 b ≤ sticky0 a) l →
  array_sort sticky_cmp l = l.
Proof.
  intros Hs. apply array_sort_fixed.
  eapply StronglySorted_weaken; [|exact Hs].
  intros a b. unfold sticky_cmp. simpl. lia.
Qed.

Lemma sticky_pass_fixed_witness :
  array_sort sticky_cmp [post "Q" 2 None; post "R" 3 (Some 0); post "P" 1 (Some (-1))]
  = [post "Q" 2 None; post "R" 3 (Some 0); post "P" 1 (Some (-1))].
Proof.
  apply (sticky_pass_fixed
           [post "Q" 2 None; post "R" 3 (Some 0); post "P" 1 (Some (-1))]).
  repeat constructor; vm_compute; discriminate.
Defined.

(** X6: running the sticky pass twice gives what running it once gives. *)
Theorem sticky_pass_idempotent (l : list Post) :
  array_sort sticky_cmp (array_sort sticky_cmp l) = array_sort sticky_cmp l.
Proof. apply array_sort_fixed, sticky_sorted. Qed.

(** X7: for the sticky pass a missing priority is the priority 0: writing
    the priorities out, a missing one as 0, before the pass or after it
    gives the same list. *)
Theorem sticky_missing_is_zero (l : list Post) :
  array_sort sticky_cmp (explicit_sticky <$> l) =
  explicit_sticky <$> array_sort sticky_cmp l.
Proof.
  apply array_sort_fmap. intros a b. unfold sticky_cmp.
  by rewrite !sticky0_explicit.
Qed.

(** X8: the result of the sticky pass is fixed by what a stable sort
    promises: a list in non-increasing priority order that holds, for
    every priority, the posts of the input with that priority in their
    input order is the result of the pass. *)
Theorem sticky_pass_unique (l l' : list Post) :
  StronglySorted (λ a b, sticky0 b ≤ sticky0 a) l' →
  (∀ s, filter (λ p, sticky0 p = s) l' = filter (λ p, sticky0 p = s) l) →
  l' = array_sort sticky_cmp l.
Proof.
  intros Hs Hf. apply sorted_groups_unique; [done| |].
  - eapply StronglySorted_weaken; [|apply sticky_sorted].
    intros a b. unfold sticky_cmp. simpl. lia.
  - intros s. rewrite Hf. symmetry. apply array_sort_stable.
    intros a b Ha Hb. unfold sticky_cmp. lia.
Qed.

Lemma sticky_pass_unique_witness :
  [post "S" 4 (Some 2); post "Q" 2 None; post "R" 3 (Some 0);
   post "P" 1 (Some (-1))]
  = array_sort sticky_cmp sample_mixed.
Proof.
  apply (sticky_pass_unique sample_mixed).
  - repeat constructor; vm_compute; discriminate.
  - intros s. unfold sample_mixed. rewrite !filter_cons, !filter_nil.
    repeat (destruct (decide _) as [?|?]); try reflexivity;
      exfalso; vm_compute in *; congruence.
Defined.

(** ** The fallbacks of the configuration (lines 26, 32, 35) *)

(** X9: a configuration in which the order, the page size and the
    pagination directory are absent, empty or 0 gives what the
    configuration with ["-date"], 10 and ["page"] written in their place
    gives. *)
Theorem defaults_explicit config locals :
  generator (explicit_defaults config) locals = generator config locals.
Proof.
  destruct config as [[ob pp] dir]. unfold generator, explicit_defaults.
  cbn [index_generator order_by per_page pagination_dir].
  replace (or_str (match ob with
                   | Some "" | None => Some "-date"
                   | Some s => Some s
                   end) "-date")
    with (or_str ob "-date") by (by destruct ob as [[|c s]|]).
  replace (or_str (match dir with
                   | Some "" | None => Some "page"
                   | Some s => Some s
                   end) "page")
    with (or_str dir "page") by (by destruct dir as [[|c s]|]).
  replace (or_num (match pp with
                   | Some 0 | None => Some 10
                   | Some n => Some n
                   end) 10)
    with (or_num pp 10) by (by destruct pp as [[|n|n]|]).
  done.
Qed.

(** ** The default order *)

Lemma order_cmp_date a b : order_cmp "date" true a b ≤ 0 ↔ date b ≤ date a.
Proof.
  unfold order_cmp. cbn [field String.eqb Ascii.eqb Bool.eqb value_compare].
  destruct (Z.compare_spec (date a) (date b)); simpl; lia.
Qed.

Lemma date_sorted (l : list Post) :
  StronglySorted (λ a b, date b ≤ date a)
    (array_sort (order_cmp "date" true) l).
Proof.
  eapply StronglySorted_weaken;
    [|apply (array_sort_sorted (order_cmp "date" true))].
  - intros a b. apply order_cmp_date.
  - intros a b c. rewrite !order_cmp_date. lia.
  - intros a b. rewrite !order_cmp_date. lia.
Qed.

(** X10: with the order left to its fallback ["-date"], two posts of one
    sticky priority (a missing one counting as 0) stand in the pages, taken
    in page order, newest first (the sort by a field being the stable sort
    of the site's document store, the paginator cutting the sequence in
    order). *)
Theorem default_order_newest_first config locals pages i j x y :
  or_str (order_by (index_generator config)) "-date" = "-date" →
  generator config locals = Ok pages →
  all_items pages !! i = Some x →
  all_items pages !! j = Some y →
  (i < j)%nat →
  sticky0 x = sticky0 y →
  date y ≤ date x.
Proof.
  intros Hd Hg Hi Hj Hlt Hxy.
  destruct locals as [[q|]]; [|injection Hg as <-; by destruct i].
  apply generator_Ok in Hg as [[_ ->]|(fin & Ho & Hp & ->)].
  { by destruct i. }
  rewrite all_items_pages_of in Hi, Hj by done.
  apply ordered_Ok in Ho. cbn zeta in Ho. rewrite Hd in Ho.
  cbn [parse_order fst snd] in Ho. subst fin.
  eapply (sticky_pass_keeps (λ a b, date b ≤ date a)); [apply date_sorted| |done].
  by eapply lookup_before.
Qed.

Lemma default_order_newest_first_witness :
  date (post "C" 10 None) ≤ date (post "A" 30 (Some 0)).
Proof.
  apply (default_order_newest_first default_config
           (mkLocals (Some (mkQuery sample_ABC)))
           [page_of "explorations/" (options_of default_config) 1 0
              [post "B" 20 (Some 1); post "A" 30 (Some 0); post "C" 10 None]]
           1 2 (post "A" 30 (Some 0)) (post "C" 10 None)).
  - reflexivity.
  - vm_compute. reflexivity.
  - reflexivity.
  - reflexivity.
  - lia.
  - reflexivity.
Defined.

(** ** The order of the collection *)

Lemma StronglySorted_of_before (R : relation Post) (l : list Post) :
  (∀ x y, before x y l → R x y) → StronglySorted R l.
Proof.
  induction l as [|z l IH]; intros HR; constructor.
  - apply IH. intros x y (l1 & l2 & l3 & ->). apply HR.
    by exists (z :: l1), l2, l3.
  - apply Forall_forall. intros y Hy. apply HR.
    apply list_elem_of_split in Hy as (l2 & l3 & ->). by exists [], l2, l3.
Qed.

Lemma StronglySorted_filter (R : relation Post) (P : Post → Prop)
    `{!∀ x, Decision (P x)} (l : list Post) :
  StronglySorted R l → StronglySorted R (filter P l).
Proof.
  induction 1 as [|x l Hs IH Hx]; [constructor|].
  rewrite filter_cons. destruct (decide (P x)); [|done].
  constructor; [done|]. rewrite Forall_forall in Hx. apply Forall_forall.
  intros y Hy. apply Hx. by apply list_elem_of_filter in Hy as [_ ?].
Qed.

(** With the fallback order the two passes leave the posts by priority,
    and by date within a priority. *)
Lemma ordered_by_priority_then_date config sel fin :
  or_str (order_by (index_generator config)) "-date" = "-date" →
  ordered config sel = Ok fin →
  StronglySorted
    (λ a b, sticky0 b ≤ sticky0 a ∧ (sticky0 a = sticky0 b → date b ≤ date a))
    fin.
Proof.
  intros Hd Ho. apply StronglySorted_of_before. intros x y Hb. split.
  - pose proof (ordered_sorted _ _ _ Ho) as Hs.
    pose proof (before_sorted _ _ _ _ Hs Hb) as Hxy.
    unfold sticky_cmp in Hxy. lia.
  - intros Hxy. apply ordered_Ok in Ho. cbn zeta in Ho. rewrite Hd in Ho.
    cbn [parse_order fst snd] in Ho. subst fin.
    by eapply (sticky_pass_keeps (λ a b, date b ≤ date a)); [apply date_sorted|..].
Qed.

(** X11: with the fallback order ["-date"], the order in which the
    collection holds its posts matters for ties only: if no two different
    posts of the category share both their sticky priority (a missing one
    counting as 0) and their date, every rearrangement of the collection
    gives the same result. *)
Theorem input_order_only_breaks_ties config q1 q2 :
  or_str (order_by (index_generator config)) "-date" = "-date" →
  data q1 ≡ₚ data q2 →
  (∀ a b, a ∈ selected (data q1) → b ∈ selected (data q1) →
          sticky0 a = sticky0 b → date a = date b → a = b) →
  generator config (mkLocals (Some q1)) = generator config (mkLocals (Some q2)).
Proof.
  intros Hd Hperm Hinj.
  assert (Hsel : selected (data q1) ≡ₚ selected (data q2)).
  { unfold selected. by rewrite Hperm. }
  destruct (ordered_default (selected (data q1)) config Hd) as [fin1 Ho1].
  destruct (ordered_default (selected (data q2)) config Hd) as [fin2 Ho2].
  assert (Hfin : fin1 = fin2).
  { eapply StronglySorted_unique_strong;
      [|by eapply ordered_by_priority_then_date
       |by eapply ordered_by_priority_then_date|].
    - intros a b Ha Hb [H1 H2] [H3 H4].
      rewrite (ordered_perm _ _ _ Ho1) in Ha.
      rewrite (ordered_perm _ _ _ Ho2), <- Hsel in Hb.
      assert (sticky0 a = sticky0 b) by lia.
      apply Hinj; [done..|]. apply Z.le_antisymm; auto.
    - by rewrite (ordered_perm _ _ _ Ho1), (ordered_perm _ _ _ Ho2). }
  rewrite !generator_stages.
  destruct (decide (selected (data q1) = [])) as [He|Hne].
  - rewrite He in Hsel. apply Permutation_nil in Hsel.
    by rewrite decide_True.
  - rewrite decide_False.
    + by rewrite Ho1, Ho2, Hfin.
    + intros He. rewrite He in Hsel. by apply Permutation_nil_r in Hsel.
Qed.

Lemma input_order_only_breaks_ties_witness :
  generator default_config (mkLocals (Some (mkQuery sample_ABC))) =
  generator default_config (mkLocals (Some (mkQuery (reverse sample_ABC)))).
Proof.
  apply (input_order_only_breaks_ties default_config
           (mkQuery sample_ABC) (mkQuery (reverse sample_ABC))).
  - reflexivity.
  - apply Permutation_sym, reverse_Permutation.
  - intros a b Ha Hb _ Hdate. vm_compute in Ha, Hb.
    repeat (apply elem_of_cons in Ha as [->|Ha]);
      try (by apply elem_of_nil in Ha);
      repeat (apply elem_of_cons in Hb as [->|Hb]);
      try (by apply elem_of_nil in Hb);
      try reflexivity; vm_compute in Hdate; discriminate Hdate.
Defined.

(** X12: the sticky pass and the filter can be swapped: ordering the whole
    collection by sticky priority and then keeping the posts of the
    category gives what the generator does, keeping them first and then
    ordering them. *)
Theorem sticky_pass_commutes_with_filter (l : list Post) :
  array_sort sticky_cmp (selected l) = selected (array_sort sticky_cmp l).
Proof.
  symmetry. apply sorted_groups_unique.
  - unfold selected. apply StronglySorted_filter.
    eapply StronglySorted_weaken; [|apply sticky_sorted].
    intros a b. unfold sticky_cmp. simpl. lia.
  - eapply StronglySorted_weaken; [|apply sticky_sorted].
    intros a b. unfold sticky_cmp. simpl. lia.
  - intros s. unfold selected.
    rewrite (array_sort_stable sticky_cmp (λ p, sticky0 p = s))
      by (intros a b Ha Hb; unfold sticky_cmp; lia).
    rewrite !list_filter_filter.
    rewrite <- (array_sort_stable sticky_cmp
                  (λ p, sticky0 p = s ∧ in_category "Explorations" p) l)
      by (intros a b [Ha _] [Hb _]; unfold sticky_cmp; lia).
    done.
Qed.
